(** * gostat/stat/betainv.go: the Beta CDF and its inverse

    A shallow embedding of [betainv.go] over Rocq's primitive binary64
    floats, which are Go's [float64]: [+ - * /], [sqrt], [abs] and the
    comparisons are the IEEE 754 operations, with signed zeros, infinities and
    one NaN.  Each operation is rounded on its own (no fused multiply-add, as
    on amd64).

    The file's loops are embedded as follows.
    - [bisect] may run forever, so its loop takes fuel and ends in [OutOfFuel]
      when the fuel runs out.
    - [betaContinuedFraction] runs at most [maxIter] = 10^9 times; the loop is
      unrolled by doubling, [cf_depth] = 30 levels giving 2^30 turns, and
      [cf_run_done] shows that the unrolling never runs out.
    - the refinement loop of [cdf_beta_Pinv] leaves when [n > 64];
      [refine_steps] = 66 turns are provided and [refine_loop_total] shows
      that they suffice.

    [math.Exp], [math.Log], [math.Pow] of Go's library and [LnΓ], [Beta_PDF] of
    the package's other files are not part of [betainv.go]: they are the
    fields of [Collaborators], taken as functions that return a float64 for
    every argument, and every general theorem holds for all of them. *)

From Stdlib Require Import ZArith Bool List String Lia.
From Stdlib Require Import Floats.
Import ListNotations.

Local Open Scope float_scope.

(* Go rounds a decimal constant to the nearest float64, and so does Rocq. *)
#[local] Set Warnings "-inexact-float".

(** ** Results of a call *)

(** A Go call of this file returns a value, panics with a message, or (in the
    embedding only) is cut off when the fuel is used up. *)
Inductive outcome (A : Type) : Type :=
| Val (a : A)
| Panic (msg : string)
| OutOfFuel.

Arguments Val {A} a.
Arguments Panic {A} msg.
Arguments OutOfFuel {A}.

Definition bind {A B : Type} (m : outcome A) (k : A -> outcome B) : outcome B :=
  match m with
  | Val a => k a
  | Panic msg => Panic msg
  | OutOfFuel => OutOfFuel
  end.

Notation "x <- m ;; k" := (bind m (fun x => k))
  (at level 61, m at next level, right associativity).

Definition is_panic {A : Type} (m : outcome A) : bool :=
  match m with Panic _ => true | _ => false end.

Definition is_val {A : Type} (m : outcome A) : bool :=
  match m with Val _ => true | _ => false end.

(** ** Go's comparisons and [math] functions on float64 *)

(** [x > y] of Go. *)
Definition gtb (x y : float) : bool := y <? x.
Infix ">?" := gtb (at level 70, no associativity) : float_scope.

(** [math.Abs], [math.Sqrt]. *)
Definition Abs (x : float) : float := abs x.
Definition Sqrt (x : float) : float := sqrt x.

(** [math.Max]: +Inf wins, then NaN, then the sign of zero, then [x > y]. *)
Definition Max (x y : float) : float :=
  if (x =? infinity) || (y =? infinity) then infinity
  else if is_nan x || is_nan y then nan
  else if (x =? 0) && (x =? y) then (if get_sign x then y else x)
  else if x >? y then x else y.

(** [float64(i)] for the loop counter. *)
Definition float64_of_Z (i : Z) : float := of_uint63 (Uint63.of_Z i).

(** ** The collaborators *)

Record Collaborators : Type := {
  Exp : float -> float;                        (* math.Exp *)
  Log : float -> float;                        (* math.Log *)
  Pow : float -> float -> float;               (* math.Pow *)
  LnΓ : float -> float;                        (* stat.LnΓ *)
  Beta_PDF : float -> float -> float -> float  (* stat.Beta_PDF(α, β)(x) *)
}.

(** ** bisect *)

Fixpoint bisect_loop (fuel : nat) (cdf : float -> float)
    (x x0 x1 p xtol ptol : float) : outcome float :=
  match fuel with
  | O => OutOfFuel
  | S fuel' =>
      if Abs (x1 - x0) >? xtol then
        let px := cdf x in
        if Abs (px - p) <? ptol then Val x
        else
          let x0' := if px <? p then x else x0 in
          let x1' := if px <? p then x1 else if px >? p then x else x1 in
          bisect_loop fuel' cdf (0.5 * (x0' + x1')) x0' x1' p xtol ptol
      else Val x
  end.

(** ** betaContinuedFraction *)

(** The divisions of the function, by the place they stand at: the quotients
    that compute a coefficient ([/qap], [/((qam+m2)*(α+m2))],
    [/((α+m2)*(qap+m2))]), the quotients [aa/c] and the reciprocals [1.0/d].
    The run of the function records the divisor of every division it makes,
    in program order. *)
Inductive site : Type := Coef | Quot | Recip.

Definition divisors : Type := list (site * float).

Definition eps : float := 2.2204460492503131e-16.
Definition maxIter : Z := 1000000000.
Definition acc : float := 1e-16.

(** [if math.Abs(v) < eps { v = eps }] *)
Definition clamp (v : float) : float := if Abs v <? eps then eps else v.

Record cf_state : Type := {
  cf_i : Z;        (* the loop counter i *)
  cf_c : float;
  cf_d : float;
  cf_res : float
}.

Inductive cf_step : Type :=
| Next (s : cf_state)
| Done (r : outcome float).

Definition cf_panic_msg : string :=
  "betaContinuedFraction(): α or β too big, or maxIter too small".

(** One turn of [for i = 1; i <= maxIter; i++ { ... }], the test of [i]
    included; past the loop stands the panic. *)
Definition cf_body (α β x : float) (s : cf_state) : cf_step * divisors :=
  let qab := α + β in
  let qap := α + 1.0 in
  let qam := α - 1.0 in
  let i := cf_i s in
  if (i <=? maxIter)%Z then
    let m := float64_of_Z i in
    let m2 := 2 * m in
    let q1 := (qam + m2) * (α + m2) in
    let aa := m * (β - m) * x / q1 in
    let d := clamp (1.0 + aa * cf_d s) in
    let c0 := cf_c s in
    let c := clamp (1.0 + aa / c0) in
    let d1 := d in
    let d := 1.0 / d1 in
    let res := cf_res s * (d * c) in
    let q2 := (α + m2) * (qap + m2) in
    let aa := - (α + m) * (qab + m) * x / q2 in
    let d := clamp (1.0 + aa * d) in
    let c1 := c in
    let c := clamp (1.0 + aa / c1) in
    let d2 := d in
    let d := 1.0 / d2 in
    let del := d * c in
    let res := res * del in
    let log := [(Coef, q1); (Quot, c0); (Recip, d1);
                (Coef, q2); (Quot, c1); (Recip, d2)] in
    if Abs (del - 1.0) <? acc then (Done (Val res), log)
    else (Next {| cf_i := i + 1; cf_c := c; cf_d := d; cf_res := res |}, log)
  else (Done (Panic cf_panic_msg), []).

(** [cf_run k] makes up to 2^k turns. *)
Fixpoint cf_run (k : nat) (α β x : float) (s : cf_state) : cf_step * divisors :=
  match k with
  | O => cf_body α β x s
  | S k' =>
      match cf_run k' α β x s with
      | (Next s', l1) =>
          let (r, l2) := cf_run k' α β x s' in (r, l1 ++ l2)
      | (Done r, l1) => (Done r, l1)
      end
  end.

Definition cf_depth : nat := 30.

(** The statements before the loop. *)
Definition cf_init (α β x : float) : cf_state * divisors :=
  let qab := α + β in
  let qap := α + 1.0 in
  let d0 := clamp (1.0 - qab * x / qap) in
  let d := 1.0 / d0 in
  ({| cf_i := 1; cf_c := 1.0; cf_d := d; cf_res := d |},
   [(Coef, qap); (Recip, d0)]).

Definition cf_trace (α β x : float) : cf_step * divisors :=
  let (s, l0) := cf_init α β x in
  let (r, l) := cf_run cf_depth α β x s in
  (r, l0 ++ l).

Definition betaContinuedFraction (α β x : float) : outcome float :=
  match fst (cf_trace α β x) with
  | Done r => r
  | Next _ => OutOfFuel
  end.

(** The divisors of all the divisions a call makes. *)
Definition cf_divisors (α β x : float) : divisors := snd (cf_trace α β x).

(** ** The refinement step of cdf_beta_Pinv *)

Definition tol : float := 1.4901161193847656e-08.

(** [if x+step > 0 && x+step < 1 { x += step } else { x = Sqrt(x)*Sqrt(mean) }] *)
Definition next_x (x step mean : float) : float :=
  if (x + step >? 0) && (x + step <? 1) then x + step
  else Sqrt x * Sqrt mean.

Record refine_state : Type := {
  r_x : float;
  r_step0 : float;
  r_n : Z
}.

Definition refine_steps : nat := 66.

Section Program.

Variable K : Collaborators.

Definition bisect (fuel : nat) (x p a b xtol ptol : float) : outcome float :=
  let cdf := Beta_PDF K a b in
  bisect_loop fuel cdf x 0 0 p xtol ptol.

Definition Beta_CDF (α β : float) : float -> outcome float :=
  fun x =>
    let y := Exp K (LnΓ K (α + β) - LnΓ K α - LnΓ K β
                    + α * Log K x + β * Log K (1.0 - x)) in
    if x =? 0 then Val 0.0
    else if x =? 1.0 then Val 1.0
    else if x <? (α + 1.0) / (α + β + 2.0) then
      cf <- betaContinuedFraction α β x ;;
      Val (y * cf / α)
    else
      cf <- betaContinuedFraction β α (1.0 - x) ;;
      Val (1.0 - y * cf / β).

Definition Beta_CDF_At (α β x : float) : outcome float :=
  let cdf := Beta_CDF α β in
  cdf x.

Definition Beta_PDF_At (α β x : float) : float :=
  if x =? 0 then 0.0
  else if x =? 1.0 then 1.0
  else
    let pdf := Beta_PDF K α β in
    pdf x.

(** The loop labelled [end] of [cdf_beta_Pinv]; the state it leaves with holds
    the returned [x] and the count [n] of refinement steps taken. *)
Fixpoint refine_loop (fuel : nat) (α β p mean : float) (s : refine_state)
    : outcome refine_state :=
  match fuel with
  | O => OutOfFuel
  | S fuel' =>
      let x := r_x s in
      if Abs (r_step0 s) >? 1e-11 * x then
        cdf <- Beta_CDF_At α β x ;;
        let dP := p - cdf in
        let phi := Beta_PDF_At α β x in
        if (dP =? 0.0) || (r_n s >? 64)%Z then Val s
        else
          let n := (r_n s + 1)%Z in
          let lambda := dP / Max (2 * Abs (dP / x)) phi in
          let step0 := lambda in
          let step1 := - ((α - 1) / x - (β - 1) / (1 - x)) * lambda * lambda / 2 in
          let step := step0 in
          let step :=
            if Abs step1 <? Abs step0 then step + step1
            else step * (2 * Abs (step0 / step1)) in
          let x := next_x x step mean in
          if Abs dP >? tol * p then
            Val {| r_x := 999.00; r_step0 := step0; r_n := n |}
          else
            refine_loop fuel' α β p mean {| r_x := x; r_step0 := step0; r_n := n |}
      else Val s
  end.

(** The first guess of [cdf_beta_Pinv], up to the call of [bisect]. *)
Definition first_guess (α β p : float) : float :=
  let mean := α / (α + β) in
  if p <? 0.1 then
    let lg_ab := LnΓ K (α + β) in
    let lg_a := LnΓ K α in
    let lg_b := LnΓ K β in
    let lx := (Log K α + lg_a + lg_b - lg_ab + Log K p) / α in
    let x :=
      if lx <=? 0 then
        let x := Exp K lx in
        x * Pow K (1 - x) (- (β - 1) / α)
      else mean in
    if x >? mean then mean else x
  else mean.

Definition cdf_beta_Pinv_run (fuel : nat) (α β p : float) : outcome refine_state :=
  let mean := α / (α + β) in
  let x := first_guess α β p in
  x <- bisect fuel x p α β 0.01 0.01 ;;
  let step0 := 999999 in
  refine_loop refine_steps α β p mean {| r_x := x; r_step0 := step0; r_n := 0 |}.

Definition cdf_beta_Pinv (fuel : nat) (α β p : float) : outcome float :=
  s <- cdf_beta_Pinv_run fuel α β p ;;
  Val (r_x s).

Definition BetaInv_CDF_For (fuel : nat) (α β p : float) : outcome float :=
  if (p <? 0.0) || (p >? 1.0) then Panic "p must be in range 0 < p < 1"
  else if α <? 0.0 then Panic "α < 0"
  else if β <? 0.0 then Panic "β < 0"
  else if p =? 0.0 then Val 0.0
  else if p =? 1.0 then Val 1.0
  else if p >? 0.5 then
    r <- cdf_beta_Pinv fuel (1 - p) β α ;;
    Val (1 - r)
  else cdf_beta_Pinv fuel α β p.

End Program.

(** ** What the claims speak of *)

(** No divisor of the list is a zero ([+0] or [-0]). *)
Definition no_zero_divisor (l : divisors) : Prop :=
  Forall (fun sv => (snd sv =? 0) = false) l.

(** A divisor at a reciprocal [1.0/d] or a quotient [aa/c] is not below [eps]
    in magnitude, and is not a zero; a coefficient's divisor is left free. *)
Definition guarded (sv : site * float) : Prop :=
  match fst sv with
  | Coef => True
  | Quot | Recip => (Abs (snd sv) <? eps) = false /\ (snd sv =? 0) = false
  end.

(** [x] lies strictly inside (0,1). *)
Definition inside01 (x : float) : Prop := (x >? 0) = true /\ (x <? 1) = true.

(** ** What the further properties speak of *)

(** A call ends with a value that satisfies [P], or with the panic of
    [betaContinuedFraction]; it is not cut off. *)
Definition ends_with {A : Type} (P : A -> Prop) (m : outcome A) : Prop :=
  match m with
  | Val a => P a
  | Panic msg => msg = cf_panic_msg
  | OutOfFuel => False
  end.

(** The messages [BetaInv_CDF_For] can panic with. *)
Definition BetaInv_CDF_For_messages : list string :=
  ["p must be in range 0 < p < 1"%string; "α < 0"%string; "β < 0"%string;
   cf_panic_msg].

(** ** Stand-ins for the collaborators

    Closed instances of [Collaborators], precise to about 1e-13, on which the
    functions above can be run. *)
Module Sample.

Fixpoint horner (cs : list float) (x : float) : float :=
  match cs with
  | [] => 0
  | c :: cs' => c + x * horner cs' x
  end.

Fixpoint square_n (n : nat) (x : float) : float :=
  match n with
  | O => x
  | S n' => let y := square_n n' x in y * y
  end.

(** Modelled from the spec: Go's [math.Exp], absent from the repository; the
    exponential, as the series of [x/1024] raised to the power 1024. *)
Definition exp (x : float) : float :=
  if x =? neg_infinity then 0
  else if x =? infinity then infinity
  else
    square_n 10
      (horner [1; 1; 1/2; 1/6; 1/24; 1/120; 1/720; 1/5040; 1/40320;
               1/362880; 1/3628800; 1/39916800; 1/479001600]
              (x / 1024)).

Definition ln2 : float := 0.6931471805599453.

(** Modelled from the spec: Go's [math.Log], absent from the repository; the
    natural logarithm, as [e * ln 2 + 2 atanh ((m - 1) / (m + 1))] for
    [x = m * 2^e]. *)
Definition log (x : float) : float :=
  if is_nan x then nan
  else if x <? 0 then nan
  else if x =? 0 then neg_infinity
  else if x =? infinity then infinity
  else
    let (m, e) := Z.frexp x in
    let (m, e) := if m <? 0.7071067811865476 then (2 * m, (e - 1)%Z) else (m, e) in
    let s := (m - 1) / (m + 1) in
    let ef := if (e <? 0)%Z then - float64_of_Z (- e) else float64_of_Z e in
    ef * ln2
    + 2 * s * horner [1; 1/3; 1/5; 1/7; 1/9; 1/11; 1/13; 1/15; 1/17; 1/19;
                      1/21; 1/23; 1/25; 1/27] (s * s).

(** Modelled from the spec: Go's [math.Pow], absent from the repository. *)
Definition pow (x y : float) : float :=
  if y =? 0 then 1
  else if x =? 1 then 1
  else exp (y * log x).

Fixpoint lngamma_shift (n : nat) (z acc : float) : float * float :=
  match n with
  | O => (z, acc)
  | S n' => if z <? 20 then lngamma_shift n' (z + 1) (acc + log z) else (z, acc)
  end.

(** Modelled from the spec: [LnΓ], a function of the package that is not in
    [betainv.go]; "supplies ln Γ(z) for positive real z", here by Stirling's
    series past 20 and the recurrence below it. *)
Definition lngamma (z : float) : float :=
  if is_nan z then nan
  else if z <=? 0 then infinity
  else
    let (w, shifted) := lngamma_shift 20 z 0 in
    let r := 1 / w in
    let r2 := r * r in
    (w - 0.5) * log w - w + 0.9189385332046727
    + r * horner [1/12; -1/360; 1/1260; -1/1680; 1/1188] r2
    - shifted.

(** Modelled from the spec: [Beta_PDF], a function of the package that is not
    in [betainv.go]; "the Beta density". *)
Definition beta_pdf (α β x : float) : float :=
  if (x <? 0) || (1 <? x) then 0
  else
    exp (lngamma (α + β) - lngamma α - lngamma β
         + (α - 1) * log x + (β - 1) * log (1 - x)).

Definition collaborators : Collaborators :=
  {| Exp := exp; Log := log; Pow := pow; LnΓ := lngamma; Beta_PDF := beta_pdf |}.

(** A state the refinement loop is entered with (Beta(2,2), p = 0.5, seed at
    the mean) and the state it is left with. *)
Definition entry : refine_state :=
  {| r_x := 0.5; r_step0 := 999999; r_n := 0 |}.

Definition leave : refine_state :=
  {| r_x := 0.50000000000000544; r_step0 := 5.47710025481741e-15; r_n := 1 |}.

End Sample.

(** * Properties *)

(** ** Comparisons of binary64 values *)

Section Comparisons.

Lemma SFcompare_Lt_Gt (a b : spec_float) :
  SFcompare a b = Some Lt -> SFcompare b a = Some Gt.
Proof.
  destruct a as [sa|sa| |sa ma ea], b as [sb|sb| |sb mb eb]; simpl;
    try destruct sa; try destruct sb; simpl;
    try discriminate; try reflexivity;
    rewrite (Z.compare_antisym ea eb);
    change (Pos.compare_cont Eq mb ma) with (Pos.compare mb ma);
    change (Pos.compare_cont Eq ma mb) with (Pos.compare ma mb);
    rewrite (Pos.compare_antisym ma mb);
    destruct (ea ?= eb)%Z; simpl; try discriminate; try reflexivity;
    destruct (ma ?= mb)%positive; simpl; try discriminate; reflexivity.
Qed.

Lemma ltb_Lt (x y : float) :
  (x <? y) = true <-> SFcompare (Prim2SF x) (Prim2SF y) = Some Lt.
Proof.
  rewrite ltb_spec. unfold SFltb.
  destruct (SFcompare (Prim2SF x) (Prim2SF y)) as [[ | | ]|];
    split; congruence.
Qed.

(** [x < y] excludes [y < x], [x == y] and [y == x]. *)
Lemma ltb_asym (x y : float) : (x <? y) = true -> (y <? x) = false.
Proof.
  intros H. apply ltb_Lt, SFcompare_Lt_Gt in H.
  rewrite ltb_spec. unfold SFltb. now rewrite H.
Qed.

Lemma ltb_not_eqb (x y : float) : (x <? y) = true -> (x =? y) = false.
Proof.
  intros H. apply ltb_Lt in H. rewrite eqb_spec. unfold SFeqb. now rewrite H.
Qed.

Lemma ltb_not_eqb' (x y : float) : (x <? y) = true -> (y =? x) = false.
Proof.
  intros H. apply ltb_Lt, SFcompare_Lt_Gt in H.
  rewrite eqb_spec. unfold SFeqb. now rewrite H.
Qed.

(** A value that compares equal to 0.0 is one of the two zeros. *)
Lemma eqb_zero_inv (v : float) :
  (v =? 0) = true -> exists s, Prim2SF v = S754_zero s.
Proof.
  rewrite eqb_spec. unfold SFeqb.
  change (Prim2SF 0) with (S754_zero false).
  destruct (Prim2SF v) as [s|s| |s m e]; simpl.
  - now exists s.
  - destruct s; discriminate.
  - discriminate.
  - destruct s; discriminate.
Qed.

(** A value above a positive constant is neither negative nor a zero. *)
Lemma above_positive (k v : float) :
  (0 <? k) = true -> (k <? v) = true -> (0 <? v) = true.
Proof.
  rewrite !ltb_Lt. change (Prim2SF 0) with (S754_zero false).
  destruct (Prim2SF k) as [sk|sk| |sk mk ek], (Prim2SF v) as [sv|sv| |sv mv ev];
    simpl; try destruct sk; try destruct sv; simpl; congruence.
Qed.

End Comparisons.

(** ** bisect *)

Section Bisect.

Variable K : Collaborators.

(** The call [bisect(x, p, α, β, 0.01, 0.01)] of [cdf_beta_Pinv] leaves its
    seed as it is. *)
Lemma bisect_in_cdf_beta_Pinv (fuel : nat) (x p a b : float) :
  bisect K (S fuel) x p a b 0.01 0.01 = Val x.
Proof. reflexivity. Qed.

(** C5. For every seed [x], target [p], shapes [a], [b], every [ptol] and every
    [xtol > 0], [bisect(x, p, a, b, xtol, ptol)] returns the seed [x]
    unchanged, whatever the fuel (one turn is enough): [x0] and [x1] both
    start at 0, so [|x1 - x0| > xtol] is false on entry and the body never
    runs. *)
Theorem bisect_returns_seed (fuel : nat) (x p a b xtol ptol : float) :
  (xtol >? 0) = true ->
  bisect K (S fuel) x p a b xtol ptol = Val x.
Proof.
  intros Hx. unfold bisect, bisect_loop, gtb in *.
  change (Abs (0 - 0)) with 0.
  now rewrite (ltb_asym _ _ Hx).
Qed.

End Bisect.

Lemma bisect_returns_seed_witness :
  (0.01 >? 0) = true /\
  bisect Sample.collaborators 1 0.4 0.3 2 3 0.01 0.01 = Val 0.4.
Proof.
  split; [reflexivity | apply bisect_returns_seed; reflexivity].
Defined.

(** ** betaContinuedFraction: the loop ends, and what it divides by *)

Section ContinuedFraction.

Variables α β x : float.

Lemma cf_body_next (s s' : cf_state) (l : divisors) :
  cf_body α β x s = (Next s', l) ->
  (cf_i s <= maxIter)%Z /\ cf_i s' = (cf_i s + 1)%Z.
Proof.
  unfold cf_body. destruct (cf_i s <=? maxIter)%Z eqn:Hi; [|discriminate].
  apply Z.leb_le in Hi.
  match goal with |- context [if ?b then _ else _] => destruct b end;
    intros H; inversion H; subst; simpl; auto.
Qed.

Lemma cf_body_done (s : cf_state) (r : outcome float) (l : divisors) :
  cf_body α β x s = (Done r, l) -> r <> OutOfFuel.
Proof.
  unfold cf_body. destruct (cf_i s <=? maxIter)%Z.
  - match goal with |- context [if ?b then _ else _] => destruct b end;
      intros H; inversion H; discriminate.
  - intros H; inversion H; discriminate.
Qed.

(** [cf_run k] that has not finished has made exactly 2^k turns. *)
Lemma cf_run_next (k : nat) : forall (s s' : cf_state) (l : divisors),
  cf_run k α β x s = (Next s', l) ->
  (cf_i s' <= maxIter + 1)%Z /\ cf_i s' = (cf_i s + 2 ^ Z.of_nat k)%Z.
Proof.
  induction k as [|k IH]; intros s s' l H.
  - apply cf_body_next in H. change (2 ^ Z.of_nat 0)%Z with 1%Z. lia.
  - cbn [cf_run] in H.
    destruct (cf_run k α β x s) as [[s1|r1] l1] eqn:H1; [|discriminate].
    destruct (cf_run k α β x s1) as [[s2|r2] l2] eqn:H2; [|discriminate].
    inversion H; subst. apply IH in H1. apply IH in H2.
    rewrite Nat2Z.inj_succ, Z.pow_succ_r by lia. lia.
Qed.

Lemma cf_run_settled (k : nat) : forall (s : cf_state) (r : outcome float) l,
  cf_run k α β x s = (Done r, l) -> r <> OutOfFuel.
Proof.
  induction k as [|k IH]; intros s r l H.
  - now apply cf_body_done in H.
  - cbn [cf_run] in H.
    destruct (cf_run k α β x s) as [[s1|r1] l1] eqn:H1.
    + destruct (cf_run k α β x s1) as [[s2|r2] l2] eqn:H2; [discriminate|].
      inversion H; subst. now apply IH in H2.
    + inversion H; subst. now apply IH in H1.
Qed.

(** The 2^30 turns provided cover the [maxIter] turns of the loop. *)
Lemma cf_run_done (s : cf_state) :
  (1 <= cf_i s)%Z ->
  exists r l, cf_run cf_depth α β x s = (Done r, l) /\ r <> OutOfFuel.
Proof.
  intros Hi.
  destruct (cf_run cf_depth α β x s) as [[s'|r] l] eqn:H.
  - apply cf_run_next in H. exfalso.
    change (2 ^ Z.of_nat cf_depth)%Z with 1073741824%Z in H.
    unfold maxIter in H. lia.
  - exists r, l. split; [reflexivity|]. now apply cf_run_settled in H.
Qed.

(** A call of [betaContinuedFraction] returns a value or panics: the
    embedding never cuts it off. *)
Lemma betaContinuedFraction_total :
  betaContinuedFraction α β x <> OutOfFuel.
Proof.
  unfold betaContinuedFraction, cf_trace, cf_init.
  match goal with |- context [cf_run cf_depth α β x ?s] =>
    destruct (cf_run_done s) as (r & l & H & Hr); [simpl; lia|rewrite H]
  end.
  exact Hr.
Qed.

End ContinuedFraction.

Section ContinuedFractionDivisors.

Variables α β x : float.

Lemma clamp_not_small (v : float) : (Abs (clamp v) <? eps) = false.
Proof.
  unfold clamp. destruct (Abs v <? eps) eqn:H; [reflexivity | exact H].
Qed.

Lemma not_small_nonzero (v : float) :
  (Abs v <? eps) = false -> (v =? 0) = false.
Proof.
  intros H. destruct (v =? 0) eqn:Hz; [|reflexivity].
  apply eqb_zero_inv in Hz. destruct Hz as [s Hs].
  unfold Abs in H. rewrite ltb_spec, abs_spec, Hs in H. discriminate H.
Qed.

Lemma guarded_clamp (st : site) (v : float) : guarded (st, clamp v).
Proof.
  pose proof (clamp_not_small v) as H.
  destruct st; simpl; try split; auto using not_small_nonzero.
Qed.

Lemma guarded_not_small (st : site) (v : float) :
  (Abs v <? eps) = false -> guarded (st, v).
Proof.
  intros H. destruct st; simpl; try split; auto using not_small_nonzero.
Qed.

Lemma guarded_Coef (v : float) : guarded (Coef, v).
Proof. exact I. Qed.

(** One turn: if [c] enters the turn not below [eps], every reciprocal and
    every [aa/c] of the turn is guarded, and [c] leaves the turn clamped. *)
Lemma cf_body_guarded (s : cf_state) :
  (Abs (cf_c s) <? eps) = false ->
  Forall guarded (snd (cf_body α β x s)) /\
  (forall s', fst (cf_body α β x s) = Next s' -> (Abs (cf_c s') <? eps) = false).
Proof.
  intros Hc. unfold cf_body.
  destruct (cf_i s <=? maxIter)%Z.
  - match goal with |- context [if ?b then _ else _] => destruct b end;
      cbn [fst snd]; split.
    all: try (intros s' E; inversion E; subst; cbn [cf_c];
              apply clamp_not_small).
    all: repeat (apply Forall_cons;
                 [first [apply guarded_Coef | apply guarded_clamp
                        | apply guarded_not_small; exact Hc]|]).
    all: apply Forall_nil.
  - cbn [fst snd]. split; [constructor | discriminate].
Qed.

Lemma cf_run_guarded (k : nat) : forall s : cf_state,
  (Abs (cf_c s) <? eps) = false ->
  Forall guarded (snd (cf_run k α β x s)) /\
  (forall s', fst (cf_run k α β x s) = Next s' -> (Abs (cf_c s') <? eps) = false).
Proof.
  induction k as [|k IH]; intros s Hc.
  - now apply cf_body_guarded.
  - cbn [cf_run].
    destruct (IH s Hc) as [H1 N1].
    destruct (cf_run k α β x s) as [[s1|r1] l1]; cbn [fst snd] in *.
    + destruct (IH s1 (N1 s1 eq_refl)) as [H2 N2].
      destruct (cf_run k α β x s1) as [r2 l2]; cbn [fst snd] in *.
      split; [apply Forall_app; auto | exact N2].
    + split; [exact H1 | discriminate].
Qed.

Lemma cf_divisors_eq :
  cf_divisors α β x =
  (Coef, α + 1.0) :: (Recip, clamp (1.0 - (α + β) * x / (α + 1.0)))
    :: snd (cf_run cf_depth α β x (fst (cf_init α β x))).
Proof.
  unfold cf_divisors, cf_trace, cf_init. cbn [fst].
  match goal with |- context [cf_run cf_depth α β x ?s] =>
    destruct (cf_run cf_depth α β x s) end.
  reflexivity.
Qed.

(** C10, as amended. In every call of [betaContinuedFraction], for all
    inputs, the divisor of each reciprocal [1.0/d] and of each quotient
    [aa/c] is not below [eps] in magnitude ([d] is clamped to [eps] before it
    is inverted, [c] is 1.0 or clamped), so none of them is a zero.  The
    divisors of the coefficients are not guarded. *)
Theorem betaContinuedFraction_guarded_divisions :
  Forall guarded (cf_divisors α β x).
Proof.
  rewrite cf_divisors_eq.
  constructor; [apply guarded_Coef|].
  constructor; [apply guarded_clamp|].
  apply cf_run_guarded. reflexivity.
Qed.

End ContinuedFractionDivisors.

(** C10, as stated, fails at α = -1, β = 1, x = 0.5: the first division,
    [qab*x/qap], divides by [qap = α + 1.0 = 0]. *)
Lemma betaContinuedFraction_divides_by_zero :
  ~ no_zero_divisor (cf_divisors (-1) 1 0.5).
Proof.
  rewrite cf_divisors_eq. intros H.
  apply Forall_inv in H. discriminate H.
Qed.

(** ** Beta_CDF_At and the refinement loop *)

Section Quantile.

Variable K : Collaborators.

Lemma bind_not_OutOfFuel {A B : Type} (m : outcome A) (k : A -> outcome B) :
  m <> OutOfFuel -> (forall a, k a <> OutOfFuel) -> bind m k <> OutOfFuel.
Proof. destruct m; simpl; auto; discriminate. Qed.

Lemma Beta_CDF_At_total (α β x : float) : Beta_CDF_At K α β x <> OutOfFuel.
Proof.
  unfold Beta_CDF_At, Beta_CDF.
  repeat match goal with |- context [if ?b then _ else _] => destruct b end;
    try discriminate;
    apply bind_not_OutOfFuel;
    auto using betaContinuedFraction_total; discriminate.
Qed.

(** The loop leaves once [n > 64]: from a state with count [n], [66 - n]
    turns (and at least one) are enough. *)
Lemma refine_loop_enough (fuel : nat) : forall (α β p mean : float) (s : refine_state),
  (1 <= Z.of_nat fuel)%Z -> (66 - r_n s <= Z.of_nat fuel)%Z ->
  refine_loop K fuel α β p mean s <> OutOfFuel.
Proof.
  induction fuel as [|fuel IH]; intros α β p mean s H1 H2; [simpl in H1; lia|].
  cbn [refine_loop].
  destruct (Abs (r_step0 s) >? 1e-11 * r_x s); [|discriminate].
  apply bind_not_OutOfFuel; [apply Beta_CDF_At_total|]. intros cdf.
  destruct (p - cdf =? 0); cbn [orb]; [discriminate|].
  destruct (r_n s >? 64)%Z eqn:Hn; [discriminate|].
  destruct (Abs (p - cdf) >? tol * p); [discriminate|].
  rewrite Z.gtb_ltb in Hn. apply Z.ltb_ge in Hn.
  apply IH; cbn [r_n]; lia.
Qed.

Lemma refine_loop_total (α β p mean x step0 : float) :
  refine_loop K refine_steps α β p mean {| r_x := x; r_step0 := step0; r_n := 0 |}
  <> OutOfFuel.
Proof. apply refine_loop_enough; cbn; lia. Qed.

(** With any fuel left for [bisect], [cdf_beta_Pinv] returns or panics. *)
Lemma cdf_beta_Pinv_total (fuel : nat) (α β p : float) :
  cdf_beta_Pinv K (S fuel) α β p <> OutOfFuel.
Proof.
  unfold cdf_beta_Pinv, cdf_beta_Pinv_run.
  rewrite bisect_in_cdf_beta_Pinv. cbn [bind].
  apply bind_not_OutOfFuel; [apply refine_loop_total | discriminate].
Qed.

Lemma BetaInv_CDF_For_total (fuel : nat) (α β p : float) :
  BetaInv_CDF_For K (S fuel) α β p <> OutOfFuel.
Proof.
  unfold BetaInv_CDF_For.
  repeat match goal with |- context [if ?b then _ else _] => destruct b end;
    try discriminate; try apply cdf_beta_Pinv_total.
  apply bind_not_OutOfFuel; [apply cdf_beta_Pinv_total | discriminate].
Qed.

(** The turn that finds the residual above the tolerance is the last one:
    the loop leaves with 999.0, whatever the count [n]. *)
Lemma refine_loop_gives_up (fuel : nat) (α β p mean cdf : float) (s : refine_state) :
  (Abs (r_step0 s) >? 1e-11 * r_x s) = true ->
  Beta_CDF_At K α β (r_x s) = Val cdf ->
  (p - cdf =? 0) = false ->
  (r_n s >? 64)%Z = false ->
  (Abs (p - cdf) >? tol * p) = true ->
  refine_loop K (S fuel) α β p mean s =
  Val {| r_x := 999;
         r_step0 := (p - cdf) / Max (2 * Abs ((p - cdf) / r_x s))
                                    (Beta_PDF_At K α β (r_x s));
         r_n := r_n s + 1 |}.
Proof.
  intros H1 H2 H3 H4 H5. cbn [refine_loop].
  rewrite H1, H2. cbn [bind]. rewrite H3, H4. cbn [orb]. rewrite H5.
  reflexivity.
Qed.

End Quantile.

(** ** The claims about Beta_CDF_At, cdf_beta_Pinv and BetaInv_CDF_For *)

(** C8. For every α and β, so for every α > 0 and β > 0:
    [Beta_CDF_At(α, β, 0)] returns exactly 0.0 and [Beta_CDF_At(α, β, 1)]
    returns exactly 1.0, whatever the collaborators compute. *)
Theorem Beta_CDF_At_boundary (K : Collaborators) (α β : float) :
  Beta_CDF_At K α β 0 = Val 0.0 /\ Beta_CDF_At K α β 1 = Val 1.0.
Proof. split; reflexivity. Qed.

(** C6, as amended. For every α < 0 or β < 0 (and every p),
    [BetaInv_CDF_For] panics: it signals a domain error and computes no
    numeric result. *)
Theorem BetaInv_CDF_For_rejects_negative
    (K : Collaborators) (fuel : nat) (α β p : float) :
  (α <? 0) = true \/ (β <? 0) = true ->
  is_panic (BetaInv_CDF_For K fuel α β p) = true.
Proof.
  intros H. unfold BetaInv_CDF_For.
  destruct ((p <? 0) || (p >? 1)); [reflexivity|].
  destruct (α <? 0); [reflexivity|].
  destruct H as [H|H]; [discriminate H|]. now rewrite H.
Qed.

Lemma BetaInv_CDF_For_rejects_negative_witness :
  is_panic (BetaInv_CDF_For Sample.collaborators 1 (-1) 3 0.5) = true.
Proof.
  apply BetaInv_CDF_For_rejects_negative. left. reflexivity.
Defined.

(** α = 0 passes the validation, for every choice of collaborators. *)
Lemma BetaInv_CDF_For_accepts_zero (K : Collaborators) (fuel : nat) :
  BetaInv_CDF_For K fuel 0 1 0 = Val 0.
Proof. reflexivity. Qed.

(** C6, as stated, fails at α = 0, β = 1, p = 0: α <= 0, and the call
    returns the number 0.0 instead of signalling a domain error. *)
Lemma BetaInv_CDF_For_zero_shape_not_rejected :
  (0 <=? 0) = true /\
  BetaInv_CDF_For Sample.collaborators 1 0 1 0 = Val 0.
Proof. split; [reflexivity | apply BetaInv_CDF_For_accepts_zero]. Qed.

(** A first residual that is not zero and is above [tol * p] ends the loop in
    its first turn. *)
Lemma cdf_beta_Pinv_gives_up
    (K : Collaborators) (fuel : nat) (α β p cdf : float) :
  (Abs 999999 >? 1e-11 * first_guess K α β p) = true ->
  Beta_CDF_At K α β (first_guess K α β p) = Val cdf ->
  (p - cdf =? 0) = false ->
  (Abs (p - cdf) >? tol * p) = true ->
  cdf_beta_Pinv_run K (S fuel) α β p =
  Val {| r_x := 999;
         r_step0 := (p - cdf) / Max (2 * Abs ((p - cdf) / first_guess K α β p))
                                    (Beta_PDF_At K α β (first_guess K α β p));
         r_n := 1 |}.
Proof.
  intros H1 H2 H3 H4.
  unfold cdf_beta_Pinv_run.
  rewrite bisect_in_cdf_beta_Pinv. cbn [bind].
  unfold refine_steps.
  now rewrite (refine_loop_gives_up K _ α β p _ cdf) by (cbn [r_x r_step0 r_n]; auto).
Qed.

(** C3 (the code breaks it). At α = 0, β = 1, p = 0.3, an input that passes
    the validation, [BetaInv_CDF_For] returns the sentinel 999.0 as if it were
    a quantile, whatever the collaborators compute: the seed is the mean 0,
    where the CDF is exactly 0, the residual 0.3 is above the tolerance, and
    the first refinement step ends the loop with [x = 999.00]. *)
Theorem BetaInv_CDF_For_returns_sentinel (K : Collaborators) (fuel : nat) :
  BetaInv_CDF_For K (S fuel) 0 1 0.3 = Val 999.
Proof.
  change (BetaInv_CDF_For K (S fuel) 0 1 0.3)
    with (cdf_beta_Pinv K (S fuel) 0 1 0.3).
  unfold cdf_beta_Pinv.
  (* first guess 0 = 0/(0+1); CDF(0) = 0; dP = 0.3 *)
  rewrite (cdf_beta_Pinv_gives_up K fuel 0 1 0.3 0); reflexivity.
Qed.

(** C4 (the code breaks it). Whenever the residual at the first guess is not
    zero and is above [tol * p], [cdf_beta_Pinv] ends its loop in the first
    turn with the sentinel 999.0: one refinement step has been taken, not 64. *)
Theorem cdf_beta_Pinv_gives_up_at_once
    (K : Collaborators) (fuel : nat) (α β p cdf : float) :
  (Abs 999999 >? 1e-11 * first_guess K α β p) = true ->
  Beta_CDF_At K α β (first_guess K α β p) = Val cdf ->
  (p - cdf =? 0) = false ->
  (Abs (p - cdf) >? tol * p) = true ->
  cdf_beta_Pinv K (S fuel) α β p = Val 999 /\
  exists step0,
    cdf_beta_Pinv_run K (S fuel) α β p =
    Val {| r_x := 999; r_step0 := step0; r_n := 1 |}.
Proof.
  intros H1 H2 H3 H4. unfold cdf_beta_Pinv.
  rewrite (cdf_beta_Pinv_gives_up K fuel α β p cdf H1 H2 H3 H4).
  split; [reflexivity | eexists; reflexivity].
Qed.

Lemma cdf_beta_Pinv_gives_up_at_once_witness :
  first_guess Sample.collaborators 2 3 0.3 = 0.4 /\
  cdf_beta_Pinv Sample.collaborators 1 2 3 0.3 = Val 999 /\
  exists step0,
    cdf_beta_Pinv_run Sample.collaborators 1 2 3 0.3 =
    Val {| r_x := 999; r_step0 := step0; r_n := 1 |}.
Proof.
  split; [vm_compute; reflexivity|].
  eapply (cdf_beta_Pinv_gives_up_at_once Sample.collaborators 0 2 3 0.3).
  1: vm_compute; reflexivity.
  1: vm_compute; reflexivity.
  1: vm_compute; reflexivity.
  vm_compute; reflexivity.
Defined.

(** C1 (the code breaks it). For every p with 0.5 < p < 1 and shapes that
    pass the validation, [BetaInv_CDF_For(α, β, p)] returns 1 minus
    [cdf_beta_Pinv(1-p, β, α)].  The parameters of [cdf_beta_Pinv] are
    (α, β, p) in this order, so the call solves for the shapes (1-p, β) at the
    probability α, and not for the shapes (β, α) at the probability 1-p. *)
Theorem BetaInv_CDF_For_upper_half
    (K : Collaborators) (fuel : nat) (α β p : float) :
  (p >? 0.5) = true -> (p <? 1) = true ->
  (α <? 0) = false -> (β <? 0) = false ->
  BetaInv_CDF_For K fuel α β p =
  (r <- cdf_beta_Pinv K fuel (1 - p) β α ;; Val (1 - r)).
Proof.
  intros Hp H1 Ha Hb. unfold BetaInv_CDF_For, gtb in *.
  assert (H0 : (0 <? p) = true) by (apply (above_positive 0.5); auto).
  rewrite (ltb_asym _ _ H0), (ltb_asym _ _ H1), Ha, Hb.
  rewrite (ltb_not_eqb' _ _ H0), (ltb_not_eqb _ _ H1), Hp.
  reflexivity.
Qed.

(** At α = 1, β = 2, p = 0.95 the call made returns 999.0 and the result is
    -998, where the swapped call of the claim finds the quantile 0.7763...
    of Beta(1,2). *)
Lemma BetaInv_CDF_For_upper_half_witness :
  BetaInv_CDF_For Sample.collaborators 1 1 2 0.95 =
    (r <- cdf_beta_Pinv Sample.collaborators 1 (1 - 0.95) 2 1 ;; Val (1 - r)) /\
  BetaInv_CDF_For Sample.collaborators 1 1 2 0.95 = Val (-998) /\
  (r <- cdf_beta_Pinv Sample.collaborators 1 2 1 (1 - 0.95) ;; Val (1 - r))
    = Val 0.77639320225002684.
Proof.
  split; [|split].
  - apply BetaInv_CDF_For_upper_half; reflexivity.
  - vm_compute. reflexivity.
  - vm_compute. reflexivity.
Defined.

(** C2 (the code breaks it). [BetaInv_CDF_For(1, 1, 0.3)] starts at the mean
    0.5; unless the CDF computed there is within [tol * 0.3] of 0.3 (the CDF
    of Beta(1,1) at 0.5 is 0.5), the call returns 999.0 and not 0.3. *)
Theorem BetaInv_CDF_For_uniform_gives_up
    (K : Collaborators) (fuel : nat) (cdf : float) :
  Beta_CDF_At K 1 1 0.5 = Val cdf ->
  (0.3 - cdf =? 0) = false ->
  (Abs (0.3 - cdf) >? tol * 0.3) = true ->
  BetaInv_CDF_For K (S fuel) 1 1 0.3 = Val 999.
Proof.
  intros H1 H2 H3.
  change (BetaInv_CDF_For K (S fuel) 1 1 0.3)
    with (cdf_beta_Pinv K (S fuel) 1 1 0.3).
  unfold cdf_beta_Pinv.
  now rewrite (cdf_beta_Pinv_gives_up K fuel 1 1 0.3 cdf) by auto.
Qed.

Lemma BetaInv_CDF_For_uniform_gives_up_witness :
  Beta_CDF_At Sample.collaborators 1 1 0.5 = Val 0.50000000000000111 /\
  BetaInv_CDF_For Sample.collaborators 1 1 1 0.3 = Val 999.
Proof.
  split; [vm_compute; reflexivity|].
  apply (BetaInv_CDF_For_uniform_gives_up Sample.collaborators 0
           0.50000000000000111); vm_compute; reflexivity.
Defined.

(** ** Rounding to binary64: square roots and products below 1

    What [Sqrt(x) * Sqrt(mean)] is for x and mean inside (0,1) is read off the
    specification of the binary64 operations ([SFsqrt], [SFmul] and the
    rounding [binary_round_aux] they share). *)

Section Rounding.

Local Open Scope Z_scope.

Lemma pow2_succ (k : Z) : 0 <= k -> 2 ^ (k + 1) = 2 * 2 ^ k.
Proof. intros. change (k + 1) with (Z.succ k). now rewrite Z.pow_succ_r. Qed.

Lemma digits2_pos_bounds (p : positive) :
  2 ^ (Zpos (digits2_pos p) - 1) <= Zpos p < 2 ^ Zpos (digits2_pos p).
Proof.
  induction p as [p IH|p IH|]; cbn [digits2_pos].
  - rewrite Pos2Z.inj_succ. unfold Z.succ.
    replace (Zpos (digits2_pos p) + 1 - 1) with (Zpos (digits2_pos p) - 1 + 1) by lia.
    rewrite !pow2_succ by lia. lia.
  - rewrite Pos2Z.inj_succ. unfold Z.succ.
    replace (Zpos (digits2_pos p) + 1 - 1) with (Zpos (digits2_pos p) - 1 + 1) by lia.
    rewrite !pow2_succ by lia. lia.
  - cbn. lia.
Qed.

Lemma digits2_pos_unique (p : positive) (k : Z) :
  2 ^ (k - 1) <= Zpos p < 2 ^ k -> Zpos (digits2_pos p) = k.
Proof.
  intros [Hl Hu]. pose proof (digits2_pos_bounds p) as [Bl Bu].
  set (d := Zpos (digits2_pos p)) in *.
  assert (0 < d) by (unfold d; lia).
  destruct (Z.lt_trichotomy d k) as [H1|[H1|H1]]; [|assumption|]; exfalso.
  - assert (2 ^ d <= 2 ^ (k - 1)) by (apply Z.pow_le_mono_r; lia). lia.
  - destruct (Z.le_gt_cases 0 k) as [Hk|Hk].
    + assert (2 ^ k <= 2 ^ (d - 1)) by (apply Z.pow_le_mono_r; lia). lia.
    + rewrite (Z.pow_neg_r 2 k) in Hu by lia. lia.
Qed.

(** shr_1 halves the mantissa. *)
Lemma shr_1_m (r : shr_record) : 0 <= shr_m r -> shr_m (shr_1 r) = shr_m r / 2.
Proof.
  destruct r as [m b c]. cbn [shr_m]. intros H.
  destruct m as [|[p|p|]|p]; cbn [shr_1 shr_m];
    try first [ reflexivity | lia ].
  - apply (Z.div_unique _ 2 _ 1); [lia | now rewrite Pos2Z.inj_xI].
  - apply (Z.div_unique _ 2 _ 0); [lia | rewrite Pos2Z.inj_xO; lia].
Qed.

Lemma pow2_double (n : positive) : 2 ^ Zpos n~0 = 2 ^ Zpos n * 2 ^ Zpos n.
Proof. rewrite Pos2Z.inj_xO, <- Z.pow_add_r by lia. f_equal. lia. Qed.

Lemma pow2_double_succ (n : positive) : 2 ^ Zpos n~1 = 2 * (2 ^ Zpos n * 2 ^ Zpos n).
Proof.
  rewrite Pos2Z.inj_xI, <- Z.pow_add_r, <- Z.pow_succ_r by lia. f_equal. lia.
Qed.

Lemma iter_shr_1_m (n : positive) : forall r : shr_record,
  0 <= shr_m r ->
  shr_m (iter_pos shr_1 n r) = shr_m r / 2 ^ Zpos n.
Proof.
  induction n as [n IH|n IH|]; intros r Hr; cbn [iter_pos].
  - assert (H1 : 0 <= shr_m (shr_1 r)).
    { rewrite shr_1_m by assumption. apply Z.div_pos; lia. }
    assert (H2 : 0 <= shr_m (iter_pos shr_1 n (shr_1 r))).
    { rewrite IH by assumption. apply Z.div_pos; lia. }
    rewrite IH, IH, shr_1_m by assumption.
    rewrite !Z.div_div by lia.
    now rewrite pow2_double_succ.
  - assert (H2 : 0 <= shr_m (iter_pos shr_1 n r)).
    { rewrite IH by assumption. apply Z.div_pos; lia. }
    rewrite IH, IH by assumption.
    rewrite !Z.div_div by lia.
    now rewrite pow2_double.
  - now rewrite shr_1_m.
Qed.


Lemma fexp64_eq (e : Z) : (fexp prec emax) e = Z.max (e - 53) (-1074).
Proof. reflexivity. Qed.

Lemma Zdigits2_bounds (m : Z) :
  0 < m -> 2 ^ (Zdigits2 m - 1) <= m < 2 ^ Zdigits2 m.
Proof.
  destruct m as [|p|p]; try lia. intros _. apply digits2_pos_bounds.
Qed.

Lemma Zdigits2_unique (m k : Z) :
  2 ^ (k - 1) <= m < 2 ^ k -> 0 < m -> Zdigits2 m = k.
Proof.
  destruct m as [|p|p]; try lia. intros H _. now apply digits2_pos_unique.
Qed.

Lemma round_nearest_even_bounds (m : Z) (l : location) :
  m <= round_nearest_even m l <= m + 1.
Proof.
  destruct l as [|[ | | ]]; cbn [round_nearest_even]; try lia.
  destruct (Z.even m); lia.
Qed.

Lemma loc_of_shr_record_of_loc (m : Z) (l : location) :
  loc_of_shr_record (shr_record_of_loc m l) = l.
Proof. destruct l as [|[ | | ]]; reflexivity. Qed.

Lemma shr_m_of_loc (m : Z) (l : location) : shr_m (shr_record_of_loc m l) = m.
Proof. destruct l as [|[ | | ]]; reflexivity. Qed.

(** The last stage of [binary_round_aux]: the rounded mantissa is
    renormalised and packed. *)
Definition round_finish (s : bool) (m2 e1 : Z) : spec_float :=
  let '(mrs, e) := shr_fexp prec emax m2 e1 loc_Exact in
  match shr_m mrs with
  | Z0 => S754_zero s
  | Zpos m => if (e <=? emax - prec) then S754_finite s m e else S754_infinity s
  | Zneg _ => S754_nan
  end.

Lemma bra_noshift (s : bool) (mx ex : Z) (lx : location) :
  (fexp prec emax) (Zdigits2 mx + ex) - ex <= 0 ->
  (binary_round_aux prec emax) s mx ex lx = round_finish s (round_nearest_even mx lx) ex.
Proof.
  intros Hn. unfold binary_round_aux, round_finish, shr_fexp at 1, shr.
  destruct ((fexp prec emax) (Zdigits2 mx + ex) - ex) as [|n|n] eqn:E; try lia;
    now rewrite shr_m_of_loc, loc_of_shr_record_of_loc.
Qed.

Lemma bra_shift (s : bool) (mx ex : Z) (lx : location) :
  0 <= mx -> 0 < (fexp prec emax) (Zdigits2 mx + ex) - ex ->
  exists m2,
    mx / 2 ^ ((fexp prec emax) (Zdigits2 mx + ex) - ex) <= m2
      <= mx / 2 ^ ((fexp prec emax) (Zdigits2 mx + ex) - ex) + 1 /\
    (binary_round_aux prec emax) s mx ex lx = round_finish s m2 ((fexp prec emax) (Zdigits2 mx + ex)).
Proof.
  intros Hm Hn. unfold binary_round_aux, round_finish, shr_fexp at 1, shr.
  destruct ((fexp prec emax) (Zdigits2 mx + ex) - ex) as [|n|n] eqn:E; try lia.
  set (r := iter_pos shr_1 n (shr_record_of_loc mx lx)).
  exists (round_nearest_even (shr_m r) (loc_of_shr_record r)).
  assert (Hr : shr_m r = mx / 2 ^ Zpos n).
  { unfold r. rewrite iter_shr_1_m; rewrite shr_m_of_loc; auto. }
  rewrite <- Hr. split; [apply round_nearest_even_bounds|].
  replace (ex + Zpos n) with ((fexp prec emax) (Zdigits2 mx + ex)) by lia.
  reflexivity.
Qed.

(** A rounded mantissa of at most 54 bits, below 1 in value, packs to a
    positive finite number below 1. *)
Lemma finish_below_one (s : bool) (m2 e1 : Z) :
  0 < m2 -> m2 <= 2 ^ 53 -> -1074 <= e1 <= -53 -> m2 < 2 ^ (- e1) ->
  exists m e,
    round_finish s m2 e1 = S754_finite s m e /\ e1 <= e <= -53 /\
    (2 ^ 52 <= m2 -> 2 ^ 52 <= Zpos m < 2 ^ 53).
Proof.
  intros H0 H53 He Hlt. unfold round_finish, shr_fexp, shr.
  pose proof (Zdigits2_bounds m2 H0) as [Dl Du].
  set (D := Zdigits2 m2) in *.
  rewrite fexp64_eq.
  destruct (Z.eq_dec m2 (2 ^ 53)) as [E|NE].
  - (* the carry: 2^53 becomes 2^52 one exponent higher *)
    assert (HD : D = 54) by (unfold D; apply Zdigits2_unique; subst m2; cbn; lia).
    assert (e1 < -53).
    { destruct (Z.eq_dec e1 (-53)) as [E1|]; [|lia]. subst e1 m2. cbn in Hlt. lia. }
    rewrite HD. replace (Z.max (54 + e1 - 53) (-1074) - e1) with 1 by lia.
    subst m2. cbn [iter_pos shr_record_of_loc]. cbn [shr_1 Z.pow Z.pow_pos Pos.iter Z.mul Pos.mul shr_m].
    change (e1 + 1 <=? emax - prec) with (e1 + 1 <=? 971).
    destruct (Z.leb_spec (e1 + 1) 971); [|lia].
    eexists _, _. split; [reflexivity|]. split; [lia|]. intros _. cbn. lia.
  - assert (HD : D <= 53).
    { destruct (Z.le_gt_cases D 53); [assumption|exfalso].
      assert (2 ^ 53 <= 2 ^ (D - 1)) by (apply Z.pow_le_mono_r; lia). lia. }
    replace (Z.max (D + e1 - 53) (-1074) - e1) with (Z.max (D - 53) (-1074 - e1) ) by lia.
    destruct (Z.max (D - 53) (-1074 - e1)) as [|n|n] eqn:En; try lia;
      cbn [shr_record_of_loc shr_m];
      (destruct m2 as [|p|p]; try lia);
      change (e1 <=? emax - prec) with (e1 <=? 971);
      (destruct (Z.leb_spec e1 971); [|lia]);
      eexists _, _; (split; [reflexivity|]); (split; [lia|]); lia.
Qed.

Lemma bounded_inv (m : positive) (e : Z) :
  bounded prec emax m e = true ->
  Z.max (Zpos (digits2_pos m) + e - 53) (-1074) = e /\ e <= 971.
Proof.
  unfold bounded, canonical_mantissa. rewrite andb_true_iff, Z.eqb_eq, Z.leb_le.
  rewrite fexp64_eq. change (emax - prec) with 971. tauto.
Qed.

Lemma sqrt_bounds (n q r : Z) :
  Z.sqrtrem n = (q, r) -> 0 <= n ->
  n = q * q + r /\ 0 <= r <= 2 * q /\ q = Z.sqrt n.
Proof.
  intros E Hn. pose proof (Z.sqrtrem_spec n Hn) as H. rewrite E in H.
  pose proof (Z.sqrtrem_sqrt n) as H'. rewrite E in H'. cbn in H'. intuition.
Qed.

Ltac pow_consts :=
  change (2 ^ 52) with 4503599627370496 in *;
  change (2 ^ 53) with 9007199254740992 in *;
  change (2 ^ 104) with 20282409603651670423947251286016 in *;
  change (2 ^ 105) with 40564819207303340847894502572032 in *;
  change (2 ^ 106) with 81129638414606681695789005144064 in *.

Lemma SFsqrt_class (m : positive) (e : Z) :
  bounded prec emax m e = true -> e <= -53 ->
  exists m' e',
    SFsqrt prec emax (S754_finite false m e) = S754_finite false m' e' /\
    2 ^ 52 <= Zpos m' < 2 ^ 53 /\ -589 <= e' <= -53.
Proof.
  intros Hb He. apply bounded_inv in Hb. destruct Hb as [Hc _].
  pose proof (digits2_pos_bounds m) as [Dl Du].
  set (d := Zpos (digits2_pos m)) in *.
  assert (Hd : 0 < d) by (unfold d; lia).
  cbn [SFsqrt]. unfold SFsqrt_core_binary.
  change (Zdigits2 (Zpos m)) with d.
  rewrite fexp64_eq, !Z.div2_div.
  set (h := (d + e + 1) / 2).
  assert (Hh : 2 * h <= d + e + 1 <= 2 * h + 1) by (unfold h; Z.div_mod_to_equations; lia).
  assert (He' : Z.min (Z.max (h - 53) (-1074)) (e / 2) = h - 53)
    by (Z.div_mod_to_equations; lia).
  rewrite He'.
  set (s := e - 2 * (h - 53)).
  assert (Hs : 52 <= s) by (unfold s; lia).
  assert (Hm : match s with
               | Zpos _ => Z.shiftl (Zpos m) s
               | Z0 => Zpos m
               | Zneg _ => 0
               end = Zpos m * 2 ^ s).
  { destruct s eqn:Es; try lia. rewrite Z.shiftl_mul_pow2; lia. }
  rewrite Hm. clear Hm.
  assert (Hds : d + s = 105 \/ d + s = 106) by (unfold s; lia).
  assert (Hlo : 2 ^ 104 <= Zpos m * 2 ^ s).
  { replace 104 with (104 - s + s) by lia. rewrite Z.pow_add_r by lia.
    apply Z.mul_le_mono_nonneg_r; [apply Z.pow_nonneg; lia|].
    eapply Z.le_trans; [|exact Dl]. apply Z.pow_le_mono_r; lia. }
  assert (Hhi : Zpos m * 2 ^ s < 2 ^ (d + s)).
  { rewrite Z.pow_add_r by lia. apply Z.mul_lt_mono_pos_r; [apply Z.pow_pos_nonneg|]; lia. }
  destruct (Z.sqrtrem (Zpos m * 2 ^ s)) as [q r] eqn:Eq.
  apply sqrt_bounds in Eq; [|lia]. destruct Eq as (Eqr & Hr & Hq).
  assert (Hq52 : 2 ^ 52 <= q).
  { rewrite Hq. apply Z.sqrt_le_square; [lia|lia|]. exact Hlo. }
  assert (Hq53 : q < 2 ^ 53).
  { rewrite Hq. apply Z.sqrt_lt_square; [lia|lia|].
    eapply Z.lt_le_trans; [exact Hhi|].
    change (2 ^ 53 * 2 ^ 53) with (2 ^ 106). apply Z.pow_le_mono_r; lia. }
  set (l := if r =? 0 then loc_Exact
            else loc_Inexact (if r <=? q then Lt else Gt)).
  assert (HDq : Zdigits2 q = 53) by (apply Zdigits2_unique; cbn; lia).
  rewrite bra_noshift by (rewrite HDq, fexp64_eq; lia).
  pose proof (round_nearest_even_bounds q l) as Hrne.
  destruct (finish_below_one false (round_nearest_even q l) (h - 53))
    as (m' & e' & Hf & He1 & Hm'); try lia.
  - (* below 1 *)
    destruct (Z.eq_dec h 0) as [Eh|Nh].
    + rewrite Eh. change (2 ^ (- (0 - 53))) with (2 ^ 53).
      destruct (Z.eq_dec q (2 ^ 53 - 1)) as [Eq1|Nq1]; [|lia].
      (* the mantissa is all ones: the remainder is small and rounds down *)
      assert (Hde : d + e = 0).
      { destruct (Z.eq_dec (d + e) 0); [assumption|exfalso].
        assert (d + s = 105) by (unfold s; lia).
        assert (Zpos m * 2 ^ s < 2 ^ 105) by (replace 105 with (d + s); assumption).
        subst q. pow_consts. lia. }
      assert (d = 53 /\ e = -53) by lia.
      assert (Es : s = 53) by (unfold s; lia).
      assert (Zpos m <= 2 ^ 53 - 1).
      { replace d with 53 in Du by lia. lia. }
      assert (Hrq : r <= q).
      { rewrite Es in Eqr. subst q. pow_consts. lia. }
      unfold l. destruct (Z.eqb_spec r 0); [cbn; lia|].
      destruct (Z.leb_spec r q); [cbn; lia|lia].
    + assert (h <= -1) by lia.
      eapply Z.le_lt_trans with (2 ^ 53); [lia|].
      apply Z.pow_lt_mono_r; lia.
  - exists m', e'. split; [exact Hf|]. split; [apply Hm'; lia|lia].
Qed.

Lemma SFmul_class (ma mb : positive) (ea eb : Z) :
  2 ^ 52 <= Zpos ma < 2 ^ 53 -> -589 <= ea <= -53 ->
  2 ^ 52 <= Zpos mb < 2 ^ 53 -> -589 <= eb <= -53 ->
  exists m e,
    SFmul prec emax (S754_finite false ma ea) (S754_finite false mb eb)
    = S754_finite false m e /\ e <= -53.
Proof.
  intros Ha Hea Hb Heb. cbn [SFmul xorb].
  rewrite Pos2Z.inj_mul.
  set (P := Zpos ma * Zpos mb). set (E := ea + eb).
  assert (HP : 2 ^ 104 <= P < 2 ^ 106) by (unfold P; pow_consts; nia).
  assert (HP0 : 0 < P) by (pow_consts; lia).
  pose proof (Zdigits2_bounds P HP0) as [Dl Du].
  set (D := Zdigits2 P) in *.
  assert (HD : 105 <= D <= 106).
  { split.
    - destruct (Z.le_gt_cases 105 D); [assumption|exfalso].
      assert (2 ^ D <= 2 ^ 104) by (apply Z.pow_le_mono_r; lia). lia.
    - destruct (Z.le_gt_cases D 106); [assumption|exfalso].
      assert (2 ^ 106 <= 2 ^ (D - 1)) by (apply Z.pow_le_mono_r; lia). lia. }
  assert (HE : -1178 <= E <= -106) by (unfold E; lia).
  set (n := (fexp prec emax) (D + E) - E).
  assert (Hn : (n = D - 53 \/ n = -1074 - E) /\ D - 53 <= n /\ -1074 - E <= n)
    by (unfold n; rewrite fexp64_eq; lia).
  destruct Hn as (Hn & Hn1 & Hn2).
  destruct (bra_shift false P E loc_Exact) as (m2 & Hm2 & Hround); [lia|fold D n; lia|].
  fold D n in Hm2, Hround. rewrite Hround.
  replace ((fexp prec emax) (D + E)) with (E + n) by (unfold n; lia).
  assert (H2n : 0 < 2 ^ n) by (apply Z.pow_pos_nonneg; lia).
  assert (Hk1 : 1 <= P / 2 ^ n).
  { apply Z.div_le_lower_bound; [lia|]. rewrite Z.mul_1_r.
    destruct Hn as [Hn|Hn].
    - eapply Z.le_trans; [|exact Dl]. apply Z.pow_le_mono_r; lia.
    - eapply Z.le_trans; [|apply HP]. apply Z.pow_le_mono_r; lia. }
  assert (Hk2 : P / 2 ^ n < 2 ^ (D - n)).
  { apply Z.div_lt_upper_bound; [lia|].
    rewrite <- Z.pow_add_r by lia. replace (n + (D - n)) with D by lia. exact Du. }
  assert (Hk3 : 2 ^ (D - n) <= 2 ^ 53) by (apply Z.pow_le_mono_r; lia).
  destruct (finish_below_one false m2 (E + n)) as (m & e & Hf & He & _); try lia.
  - (* below 1 *)
    destruct (Z.eq_dec (D + E) 0) as [E0|N0].
    + assert (D = 106 /\ E = -106) by lia.
      assert (ea = -53 /\ eb = -53) by (unfold E in *; lia).
      assert (Hn53 : n = 53) by lia.
      replace (- (E + n)) with 53 by lia.
      assert (P / 2 ^ n < 2 ^ 53 - 1); [|lia].
      rewrite Hn53. apply Z.div_lt_upper_bound; [lia|].
      unfold P. pow_consts. nia.
    + assert (2 * 2 ^ (D - n) <= 2 ^ (- (E + n))); [|lia].
      rewrite <- pow2_succ by lia. apply Z.pow_le_mono_r; lia.
  - exists m, e. split; [exact Hf | lia].
Qed.

End Rounding.

(** ** The iterate of the refinement loop stays inside (0,1) *)

Section Inside01.

(** A float inside (0,1) is a positive finite number with an exponent of at
    most -53. *)
Lemma inside01_inv (x : float) :
  inside01 x ->
  exists m e, Prim2SF x = S754_finite false m e /\
              bounded prec emax m e = true /\ (e <= -53)%Z.
Proof.
  intros [H0 H1]. unfold gtb in H0. apply ltb_Lt in H0, H1.
  pose proof (Prim2SF_valid x) as Hv.
  change (Prim2SF 0) with (S754_zero false) in H0.
  change (Prim2SF 1) with (S754_finite false 4503599627370496 (-52)) in H1.
  destruct (Prim2SF x) as [s|s| |s m e];
    cbn [SFcompare valid_binary] in H0, H1, Hv;
    try destruct s; try discriminate.
  exists m, e. split; [reflexivity|]. split; [exact Hv|].
  destruct (Z.compare_spec e (-52)) as [E|E|E]; try discriminate; [|lia].
  exfalso. subst e. apply bounded_inv in Hv. destruct Hv as [Hc _].
  assert (Hm : (m ?= 4503599627370496)%positive = Lt).
  { unfold Pos.compare.
    destruct (Pos.compare_cont Eq m 4503599627370496); congruence. }
  assert (Hz : (Z.pos m < 4503599627370496)%Z) by exact Hm.
  pose proof (digits2_pos_bounds m) as [Dl _].
  assert (Hd : Zpos (digits2_pos m) = 53%Z) by lia.
  rewrite Hd in Dl. change (2 ^ (53 - 1))%Z with 4503599627370496%Z in Dl. lia.
Qed.

(** A positive finite number with an exponent of at most -53 is inside
    (0,1). *)
Lemma inside01_intro (x : float) (m : positive) (e : Z) :
  Prim2SF x = S754_finite false m e -> (e <= -53)%Z -> inside01 x.
Proof.
  intros Hx He. unfold inside01, gtb. rewrite !ltb_spec, Hx.
  change (Prim2SF 0) with (S754_zero false).
  change (Prim2SF 1) with (S754_finite false 4503599627370496 (-52)).
  split; [reflexivity|]. unfold SFltb. cbn [SFcompare].
  destruct (Z.compare_spec e (-52)) as [E|E|E]; [lia | reflexivity | lia].
Qed.

(** The fallback point of the loop. *)
Lemma sqrt_mul_sqrt_inside01 (x mean : float) :
  inside01 x -> inside01 mean -> inside01 (Sqrt x * Sqrt mean).
Proof.
  intros Hx Hm.
  destruct (inside01_inv x Hx) as (mx & ex & Ex & Bx & Lx).
  destruct (inside01_inv mean Hm) as (mm & em & Em & Bm & Lm).
  destruct (SFsqrt_class mx ex Bx Lx) as (ma & ea & Ea & Ma & Xa).
  destruct (SFsqrt_class mm em Bm Lm) as (mb & eb & Eb & Mb & Xb).
  destruct (SFmul_class ma mb ea eb Ma Xa Mb Xb) as (m & e & E & He).
  apply (inside01_intro _ m e); [|exact He].
  unfold Sqrt. rewrite mul_spec, !sqrt_spec, Ex, Em.
  unfold SF64mul, SF64sqrt. now rewrite Ea, Eb.
Qed.

(** One step: [x + step] is taken only when [0 < x + step < 1], and the
    point taken instead is inside (0,1) too. *)
Lemma next_x_inside01 (x step mean : float) :
  inside01 x -> inside01 mean -> inside01 (next_x x step mean).
Proof.
  intros Hx Hm. unfold next_x.
  destruct ((x + step >? 0) && (x + step <? 1)) eqn:C.
  - apply andb_true_iff in C. exact C.
  - now apply sqrt_mul_sqrt_inside01.
Qed.

Variable K : Collaborators.

Lemma refine_loop_inside01 (fuel : nat) :
  forall (α β p mean : float) (s s' : refine_state),
  inside01 (r_x s) -> inside01 mean ->
  refine_loop K fuel α β p mean s = Val s' ->
  r_x s' = 999 \/ inside01 (r_x s').
Proof.
  induction fuel as [|fuel IH]; intros α β p mean s s' Hx Hm; [discriminate|].
  cbn [refine_loop].
  destruct (Abs (r_step0 s) >? 1e-11 * r_x s);
    [|intros E; inversion E; subst; now right].
  destruct (Beta_CDF_At K α β (r_x s)) as [cdf| |]; cbn [bind]; try discriminate.
  destruct ((p - cdf =? 0) || (r_n s >? 64)%Z);
    [intros E; inversion E; subst; now right|].
  destruct (Abs (p - cdf) >? tol * p).
  - intros E; inversion E; subst. now left.
  - apply IH; cbn [r_x]; [apply next_x_inside01|]; assumption.
Qed.

(** C9. The refinement loop of [cdf_beta_Pinv] keeps the iterate strictly
    inside (0,1) as long as the sentinel is not assigned: for x and mean in
    (0,1), the step taken is [x + step] only when 0 < x + step < 1, and is
    [Sqrt(x) * Sqrt(mean)] otherwise, which lies in (0,1) again; so a loop
    entered with x in (0,1) leaves with 999.0 or with x in (0,1). *)
Theorem refine_keeps_iterate_inside01
    (fuel : nat) (α β p mean step : float) (s s' : refine_state) :
  inside01 (r_x s) -> inside01 mean ->
  (next_x (r_x s) step mean =
     if (r_x s + step >? 0) && (r_x s + step <? 1) then r_x s + step
     else Sqrt (r_x s) * Sqrt mean) /\
  inside01 (Sqrt (r_x s) * Sqrt mean) /\
  inside01 (next_x (r_x s) step mean) /\
  (refine_loop K fuel α β p mean s = Val s' ->
   r_x s' = 999 \/ inside01 (r_x s')).
Proof.
  intros Hx Hm. split; [reflexivity|].
  split; [now apply sqrt_mul_sqrt_inside01|].
  split; [now apply next_x_inside01|].
  now apply refine_loop_inside01.
Qed.

End Inside01.

Lemma refine_keeps_iterate_inside01_witness :
  (inside01 (r_x Sample.entry) /\ inside01 0.5 /\
   refine_loop Sample.collaborators 66 2 2 0.5 0.5 Sample.entry
   = Val Sample.leave) /\
  (next_x (r_x Sample.entry) 0.7 0.5 =
     if (r_x Sample.entry + 0.7 >? 0) && (r_x Sample.entry + 0.7 <? 1)
     then r_x Sample.entry + 0.7
     else Sqrt (r_x Sample.entry) * Sqrt 0.5) /\
  inside01 (Sqrt (r_x Sample.entry) * Sqrt 0.5) /\
  inside01 (next_x (r_x Sample.entry) 0.7 0.5) /\
  (refine_loop Sample.collaborators 66 2 2 0.5 0.5 Sample.entry
   = Val Sample.leave ->
   r_x Sample.leave = 999 \/ inside01 (r_x Sample.leave)).
Proof.
  split.
  - split; [split; reflexivity|]. split; [split; reflexivity|].
    vm_compute. reflexivity.
  - exact (refine_keeps_iterate_inside01 Sample.collaborators 66 2 2 0.5 0.5 0.7
             Sample.entry Sample.leave
             (conj eq_refl eq_refl) (conj eq_refl eq_refl)).
Defined.

(** * Further properties of the code *)

(** ** NaN arguments *)

Section NaN.

Lemma Prim2SF_nan_inv (x : float) : Prim2SF x = S754_nan -> x = nan.
Proof. intros H. apply Prim2SF_inj. exact H. Qed.

Lemma add_nan_l (y : float) : nan + y = nan.
Proof. apply Prim2SF_nan_inv. now rewrite add_spec. Qed.

Lemma add_nan_r (x : float) : x + nan = nan.
Proof.
  apply Prim2SF_nan_inv. rewrite add_spec.
  change (Prim2SF nan) with S754_nan. now destruct (Prim2SF x).
Qed.

Lemma sub_nan_l (y : float) : nan - y = nan.
Proof. apply Prim2SF_nan_inv. now rewrite sub_spec. Qed.

Lemma sub_nan_r (x : float) : x - nan = nan.
Proof.
  apply Prim2SF_nan_inv. rewrite sub_spec.
  change (Prim2SF nan) with S754_nan. now destruct (Prim2SF x).
Qed.

Lemma mul_nan_l (y : float) : nan * y = nan.
Proof. apply Prim2SF_nan_inv. now rewrite mul_spec. Qed.

Lemma mul_nan_r (x : float) : x * nan = nan.
Proof.
  apply Prim2SF_nan_inv. rewrite mul_spec.
  change (Prim2SF nan) with S754_nan. now destruct (Prim2SF x).
Qed.

Lemma div_nan_l (y : float) : nan / y = nan.
Proof. apply Prim2SF_nan_inv. now rewrite div_spec. Qed.

Lemma div_nan_r (x : float) : x / nan = nan.
Proof.
  apply Prim2SF_nan_inv. rewrite div_spec.
  change (Prim2SF nan) with S754_nan. now destruct (Prim2SF x).
Qed.

Lemma opp_nan : - nan = nan.
Proof. reflexivity. Qed.

Lemma ltb_nan_l (y : float) : (nan <? y) = false.
Proof. now rewrite ltb_spec. Qed.

Lemma ltb_nan_r (x : float) : (x <? nan) = false.
Proof.
  rewrite ltb_spec. change (Prim2SF nan) with S754_nan.
  now destruct (Prim2SF x).
Qed.

Lemma eqb_nan_l (y : float) : (nan =? y) = false.
Proof. now rewrite eqb_spec. Qed.

Lemma Abs_nan : Abs nan = nan.
Proof. reflexivity. Qed.

Lemma clamp_nan : clamp nan = nan.
Proof. reflexivity. Qed.

End NaN.

Create Rewrite HintDb nan.
#[local] Hint Rewrite add_nan_l add_nan_r sub_nan_l sub_nan_r mul_nan_l mul_nan_r
  div_nan_l div_nan_r opp_nan ltb_nan_l ltb_nan_r eqb_nan_l Abs_nan clamp_nan
  : nan.

Section ContinuedFractionNaN.

Variables α β : float.

(** With [x] a NaN, no turn of the loop converges. *)
Lemma cf_body_nan (s : cf_state) :
  (cf_i s <= maxIter)%Z ->
  exists s' l, cf_body α β nan s = (Next s', l).
Proof.
  intros Hi. unfold cf_body.
  apply Z.leb_le in Hi. rewrite Hi.
  autorewrite with nan.
  eexists _, _. reflexivity.
Qed.

Lemma cf_body_panics (x : float) (s : cf_state) :
  (maxIter < cf_i s)%Z ->
  cf_body α β x s = (Done (Panic cf_panic_msg), []).
Proof.
  intros Hi. unfold cf_body. apply Z.leb_gt in Hi. now rewrite Hi.
Qed.

(** A loop none of whose turns converges ends in the panic. *)
Lemma cf_run_never_converges (x : float) :
  (forall s, (cf_i s <= maxIter)%Z -> exists s' l, cf_body α β x s = (Next s', l)) ->
  forall (k : nat) (s : cf_state),
    (exists s' l, cf_run k α β x s = (Next s', l)) \/
    (exists l, cf_run k α β x s = (Done (Panic cf_panic_msg), l)).
Proof.
  intros Hb. induction k as [|k IH]; intros s.
  - cbn [cf_run]. destruct (Z.le_gt_cases (cf_i s) maxIter) as [Hi|Hi].
    + left. now apply Hb.
    + right. exists []. now apply cf_body_panics.
  - cbn [cf_run]. destruct (IH s) as [(s1 & l1 & E1)|(l1 & E1)]; rewrite E1.
    + destruct (IH s1) as [(s2 & l2 & E2)|(l2 & E2)]; rewrite E2.
      * left. eauto.
      * right. eauto.
    + right. eauto.
Qed.

Lemma betaContinuedFraction_never_converges (x : float) :
  (forall s, (cf_i s <= maxIter)%Z -> exists s' l, cf_body α β x s = (Next s', l)) ->
  betaContinuedFraction α β x = Panic cf_panic_msg.
Proof.
  intros Hb. unfold betaContinuedFraction, cf_trace, cf_init.
  match goal with |- context [cf_run cf_depth α β x ?s] =>
    destruct (cf_run_never_converges x Hb cf_depth s) as [(s' & l & E)|(l & E)];
    [destruct (cf_run_done α β x s) as (r & l' & E' & _); [cbn; lia|congruence]
    |rewrite E; reflexivity]
  end.
Qed.

Lemma cf_nan_panics : betaContinuedFraction α β nan = Panic cf_panic_msg.
Proof. apply betaContinuedFraction_never_converges, cf_body_nan. Qed.

End ContinuedFractionNaN.

(** X1. With a NaN for [x], [betaContinuedFraction] never converges: it runs
    its [maxIter] turns and panics; and so does [Beta_CDF_At(α, β, NaN)], which
    routes a NaN to the second branch (no comparison with a NaN holds). *)
Theorem nan_argument_panics (K : Collaborators) (α β : float) :
  betaContinuedFraction α β nan = Panic cf_panic_msg /\
  Beta_CDF_At K α β nan = Panic cf_panic_msg.
Proof.
  split; [apply cf_nan_panics|].
  unfold Beta_CDF_At, Beta_CDF.
  change (nan =? 0) with false. change (nan =? 1) with false. cbv iota.
  rewrite ltb_nan_l, sub_nan_r, cf_nan_panics. reflexivity.
Qed.

Section NaNQuantile.

Variable K : Collaborators.

Lemma refine_loop_nan_p (fuel : nat) (α β mean cdf : float) (s : refine_state) :
  (Abs (r_step0 s) >? 1e-11 * r_x s) = true ->
  Beta_CDF_At K α β (r_x s) = Val cdf ->
  (r_n s >? 64)%Z = false ->
  refine_loop K (S (S fuel)) α β nan mean s =
  Val {| r_x := Sqrt (r_x s) * Sqrt mean; r_step0 := nan; r_n := r_n s + 1 |}.
Proof.
  intros H1 H2 H3. cbn [refine_loop].
  rewrite H1, H2. cbn [bind]. rewrite H3.
  unfold next_x, gtb. autorewrite with nan. cbn [orb].
  change (0 <? nan) with false. cbn [andb].
  reflexivity.
Qed.

Lemma refine_loop_not_entered (fuel : nat)
    (α β p mean : float) (s : refine_state) :
  (Abs (r_step0 s) >? 1e-11 * r_x s) = false ->
  refine_loop K (S fuel) α β p mean s = Val s.
Proof. intros H. cbn [refine_loop]. now rewrite H. Qed.

(** X2. A NaN probability is not rejected: [p < 0.0 || p > 1.0] is false for
    a NaN.  For shapes that pass the validation, [BetaInv_CDF_For(α, β, NaN)]
    starts at the mean, takes one step to the fallback point and returns
    [Sqrt(mean) * Sqrt(mean)], provided the loop is entered and the CDF at the
    mean returns. *)
Theorem BetaInv_CDF_For_nan_probability (fuel : nat) (α β cdf : float) :
  (α <? 0) = false -> (β <? 0) = false ->
  (Abs 999999 >? 1e-11 * (α / (α + β))) = true ->
  Beta_CDF_At K α β (α / (α + β)) = Val cdf ->
  BetaInv_CDF_For K (S fuel) α β nan
  = Val (Sqrt (α / (α + β)) * Sqrt (α / (α + β))).
Proof.
  intros Ha Hb H1 H2. unfold BetaInv_CDF_For, gtb.
  rewrite Ha, Hb. change (nan <? 0) with false. change (1 <? nan) with false.
  change (nan =? 0) with false. change (nan =? 1) with false.
  change (0.5 <? nan) with false. cbn [orb].
  unfold cdf_beta_Pinv, cdf_beta_Pinv_run.
  rewrite bisect_in_cdf_beta_Pinv. cbn [bind].
  unfold first_guess. change (nan <? 0.1) with false. cbv iota.
  unfold refine_steps.
  rewrite (refine_loop_nan_p _ α β _ cdf) by (cbn [r_x r_step0 r_n]; auto).
  reflexivity.
Qed.

(** X3. A NaN shape is not rejected either ([α < 0.0] is false for a NaN).
    For p >= 0.1 the first guess is the mean, a NaN, the loop test
    [|step0| > 1e-11*x] fails at once and [cdf_beta_Pinv] returns NaN. *)
Theorem cdf_beta_Pinv_nan_shape (fuel : nat) (α β p : float) :
  (p <? 0.1) = false ->
  cdf_beta_Pinv K (S fuel) nan β p = Val nan /\
  cdf_beta_Pinv K (S fuel) α nan p = Val nan.
Proof.
  intros Hp. unfold cdf_beta_Pinv, cdf_beta_Pinv_run.
  rewrite !bisect_in_cdf_beta_Pinv. cbn [bind].
  unfold first_guess, refine_steps. rewrite Hp.
  autorewrite with nan.
  rewrite !refine_loop_not_entered
    by (cbn [r_x r_step0]; unfold gtb; now autorewrite with nan).
  split; reflexivity.
Qed.

End NaNQuantile.

Lemma BetaInv_CDF_For_nan_probability_witness :
  BetaInv_CDF_For Sample.collaborators 1 2 3 nan = Val (Sqrt (2 / (2 + 3)) * Sqrt (2 / (2 + 3))).
Proof.
  eapply (BetaInv_CDF_For_nan_probability Sample.collaborators 0 2 3).
  1-3: reflexivity.
  vm_compute. reflexivity.
Defined.

Lemma cdf_beta_Pinv_nan_shape_witness :
  cdf_beta_Pinv Sample.collaborators 1 nan 3 0.3 = Val nan /\
  cdf_beta_Pinv Sample.collaborators 1 2 nan 0.3 = Val nan.
Proof. apply cdf_beta_Pinv_nan_shape. reflexivity. Defined.

(** ** How a call ends *)

Section Outcomes.

Lemma ends_with_bind {A B : Type} (Q : B -> Prop) (m : outcome A) (k : A -> outcome B) :
  ends_with (fun a => ends_with Q (k a)) m -> ends_with Q (bind m k).
Proof. destruct m; simpl; auto. Qed.

Lemma ends_with_impl {A : Type} (P Q : A -> Prop) (m : outcome A) :
  (forall a, P a -> Q a) -> ends_with P m -> ends_with Q m.
Proof. destruct m; simpl; auto. Qed.

Lemma cf_body_ends (α β x : float) (s : cf_state) (r : outcome float) (l : divisors) :
  cf_body α β x s = (Done r, l) -> ends_with (fun _ => True) r.
Proof.
  unfold cf_body. destruct (cf_i s <=? maxIter)%Z.
  - match goal with |- context [if ?b then _ else _] => destruct b end;
      intros H; inversion H; exact I.
  - intros H; inversion H; reflexivity.
Qed.

Lemma cf_run_ends (α β x : float) (k : nat) :
  forall (s : cf_state) (r : outcome float) (l : divisors),
  cf_run k α β x s = (Done r, l) -> ends_with (fun _ => True) r.
Proof.
  induction k as [|k IH]; intros s r l H.
  - now apply cf_body_ends in H.
  - cbn [cf_run] in H.
    destruct (cf_run k α β x s) as [[s1|r1] l1] eqn:H1.
    + destruct (cf_run k α β x s1) as [[s2|r2] l2] eqn:H2; [discriminate|].
      inversion H; subst. now apply IH in H2.
    + inversion H; subst. now apply IH in H1.
Qed.

Lemma betaContinuedFraction_ends (α β x : float) :
  ends_with (fun _ => True) (betaContinuedFraction α β x).
Proof.
  unfold betaContinuedFraction, cf_trace, cf_init.
  match goal with |- context [cf_run cf_depth α β x ?s] =>
    destruct (cf_run_done α β x s) as (r & l & H & _); [simpl; lia|rewrite H]
  end.
  now apply cf_run_ends in H.
Qed.

Variable K : Collaborators.

Lemma Beta_CDF_At_ends (α β x : float) :
  ends_with (fun _ => True) (Beta_CDF_At K α β x).
Proof.
  unfold Beta_CDF_At, Beta_CDF.
  repeat match goal with |- context [if ?b then _ else _] => destruct b end;
    try exact I;
    apply ends_with_bind;
    (eapply ends_with_impl; [|apply betaContinuedFraction_ends]);
    intros; exact I.
Qed.

(** The count of refinement steps only grows, and stops at 65. *)
Lemma refine_loop_ends (fuel : nat) :
  forall (α β p mean : float) (s : refine_state),
  (1 <= Z.of_nat fuel)%Z -> (66 - r_n s <= Z.of_nat fuel)%Z ->
  (r_n s <= 65)%Z ->
  ends_with (fun s' => (r_n s <= r_n s' <= 65)%Z)
            (refine_loop K fuel α β p mean s).
Proof.
  induction fuel as [|fuel IH]; intros α β p mean s H1 H2 H3; [simpl in H1; lia|].
  cbn [refine_loop].
  destruct (Abs (r_step0 s) >? 1e-11 * r_x s); [|simpl; lia].
  pose proof (Beta_CDF_At_ends α β (r_x s)) as Hc.
  destruct (Beta_CDF_At K α β (r_x s)) as [cdf|msg|]; cbn [bind]; try exact Hc.
  destruct (p - cdf =? 0); cbn [orb]; [simpl; lia|].
  destruct (r_n s >? 64)%Z eqn:Hn; [simpl; lia|].
  rewrite Z.gtb_ltb in Hn. apply Z.ltb_ge in Hn.
  destruct (Abs (p - cdf) >? tol * p); [simpl; lia|].
  eapply ends_with_impl; [|apply IH; cbn [r_n]; lia].
  cbn [r_n]. intros; lia.
Qed.

(** X4. With any fuel left for [bisect], [cdf_beta_Pinv] ends: it returns
    after at most 65 refinement steps (0 <= n <= 65), or it panics with the
    message of [betaContinuedFraction]. *)
Theorem cdf_beta_Pinv_step_count (fuel : nat) (α β p : float) :
  ends_with (fun s => (0 <= r_n s <= 65)%Z) (cdf_beta_Pinv_run K (S fuel) α β p).
Proof.
  unfold cdf_beta_Pinv_run. rewrite bisect_in_cdf_beta_Pinv. cbn [bind].
  eapply ends_with_impl; [|apply refine_loop_ends; cbn; lia].
  cbn [r_n]. intros; lia.
Qed.

Lemma cdf_beta_Pinv_ends (fuel : nat) (α β p : float) :
  ends_with (fun _ => True) (cdf_beta_Pinv K (S fuel) α β p).
Proof.
  unfold cdf_beta_Pinv, cdf_beta_Pinv_run.
  rewrite bisect_in_cdf_beta_Pinv. cbn [bind].
  apply ends_with_bind.
  eapply ends_with_impl; [|apply refine_loop_ends; cbn; lia].
  intros; exact I.
Qed.

(** X5. [BetaInv_CDF_For] returns a value or panics with one of four
    messages: the three of its validation and the one of
    [betaContinuedFraction]. *)
Theorem BetaInv_CDF_For_outcomes (fuel : nat) (α β p : float) :
  match BetaInv_CDF_For K (S fuel) α β p with
  | Val _ => True
  | Panic msg => In msg BetaInv_CDF_For_messages
  | OutOfFuel => False
  end.
Proof.
  assert (H : forall m : outcome float,
             ends_with (fun _ => True) m ->
             match m with
             | Val _ => True
             | Panic msg => In msg BetaInv_CDF_For_messages
             | OutOfFuel => False
             end).
  { intros [v|msg|]; simpl; auto. }
  unfold BetaInv_CDF_For.
  destruct ((p <? 0) || (p >? 1)); [simpl; auto|].
  destruct (α <? 0); [simpl; auto|].
  destruct (β <? 0); [simpl; auto|].
  destruct (p =? 0); [exact I|].
  destruct (p =? 1); [exact I|].
  destruct (p >? 0.5); apply H.
  - apply ends_with_bind. eapply ends_with_impl; [|apply cdf_beta_Pinv_ends].
    intros; exact I.
  - apply cdf_beta_Pinv_ends.
Qed.


(** X7. The first guess of [cdf_beta_Pinv] is never above the mean
    α/(α+β), whatever the collaborators return. *)
Theorem first_guess_not_above_mean (α β p : float) :
  (first_guess K α β p >? α / (α + β)) = false.
Proof.
  assert (Irr : forall v : float, (v >? v) = false).
  { intros v. unfold gtb. destruct (v <? v) eqn:E; [|reflexivity].
    pose proof (ltb_asym _ _ E). congruence. }
  unfold first_guess. destruct (p <? 0.1); [|apply Irr].
  match goal with |- context [if ?b then α / (α + β) else ?x] =>
    destruct b eqn:E; [apply Irr | exact E] end.
Qed.

Lemma refine_loop_exact_root (fuel : nat) (α β p mean cdf : float) (s : refine_state) :
  Beta_CDF_At K α β (r_x s) = Val cdf ->
  (p - cdf =? 0) = true ->
  refine_loop K (S fuel) α β p mean s = Val s.
Proof.
  intros H1 H2. cbn [refine_loop].
  destruct (Abs (r_step0 s) >? 1e-11 * r_x s); [|reflexivity].
  rewrite H1. cbn [bind]. now rewrite H2.
Qed.

(** X8. When the CDF at the first guess equals p exactly ([dP == 0.0]),
    [cdf_beta_Pinv] returns the first guess as it is, with no refinement
    step. *)
Theorem cdf_beta_Pinv_exact_root (fuel : nat) (α β p cdf : float) :
  Beta_CDF_At K α β (first_guess K α β p) = Val cdf ->
  (p - cdf =? 0) = true ->
  cdf_beta_Pinv_run K (S fuel) α β p =
  Val {| r_x := first_guess K α β p; r_step0 := 999999; r_n := 0 |}.
Proof.
  intros H1 H2. unfold cdf_beta_Pinv_run.
  rewrite bisect_in_cdf_beta_Pinv. cbn [bind].
  unfold refine_steps.
  now rewrite (refine_loop_exact_root _ α β p _ cdf).
Qed.

Lemma refine_loop_range (fuel : nat) (α β p mean : float) (s : refine_state) :
  (1 <= Z.of_nat fuel)%Z -> (66 - r_n s <= Z.of_nat fuel)%Z ->
  (r_n s <= 65)%Z ->
  inside01 (r_x s) -> inside01 mean ->
  ends_with (fun s' => r_x s' = 999 \/ inside01 (r_x s'))
            (refine_loop K fuel α β p mean s).
Proof.
  intros H1 H2 H3 Hx Hm.
  pose proof (refine_loop_ends fuel α β p mean s H1 H2 H3) as He.
  pose proof (refine_loop_inside01 K fuel α β p mean s) as Hi.
  destruct (refine_loop K fuel α β p mean s) as [s'|msg|]; try exact He.
  cbn [ends_with]. now apply Hi.
Qed.

(** X9. For p >= 0.1 and a mean α/(α+β) strictly inside (0,1),
    [cdf_beta_Pinv] returns 999.0 or a point strictly inside (0,1), or panics
    with the message of [betaContinuedFraction]. *)
Theorem cdf_beta_Pinv_range (fuel : nat) (α β p : float) :
  (p <? 0.1) = false -> inside01 (α / (α + β)) ->
  ends_with (fun r => r = 999 \/ inside01 r) (cdf_beta_Pinv K (S fuel) α β p).
Proof.
  intros Hp Hm.
  unfold cdf_beta_Pinv, cdf_beta_Pinv_run.
  rewrite bisect_in_cdf_beta_Pinv. cbn [bind].
  apply ends_with_bind.
  eapply ends_with_impl; [|apply refine_loop_range; cbn [r_n r_x]].
  - intros s' H. exact H.
  - cbn; lia.
  - cbn; lia.
  - lia.
  - unfold first_guess. now rewrite Hp.
  - exact Hm.
Qed.

(** X10. At the ends of the range, [BetaInv_CDF_For] and [Beta_CDF_At]
    invert each other exactly, for all shapes that pass the validation. *)
Theorem BetaInv_CDF_For_endpoints (fuel : nat) (α β : float) :
  (α <? 0) = false -> (β <? 0) = false ->
  (x <- BetaInv_CDF_For K fuel α β 0 ;; Beta_CDF_At K α β x) = Val 0 /\
  (x <- BetaInv_CDF_For K fuel α β 1 ;; Beta_CDF_At K α β x) = Val 1 /\
  (p <- Beta_CDF_At K α β 0 ;; BetaInv_CDF_For K fuel α β p) = Val 0 /\
  (p <- Beta_CDF_At K α β 1 ;; BetaInv_CDF_For K fuel α β p) = Val 1.
Proof.
  intros Ha Hb.
  assert (H0 : BetaInv_CDF_For K fuel α β 0 = Val 0)
    by (unfold BetaInv_CDF_For; now rewrite Ha, Hb).
  assert (H1 : BetaInv_CDF_For K fuel α β 1 = Val 1)
    by (unfold BetaInv_CDF_For; now rewrite Ha, Hb).
  repeat split.
  - now rewrite H0.
  - now rewrite H1.
  - exact H0.
  - exact H1.
Qed.


End Outcomes.


Lemma cdf_beta_Pinv_exact_root_witness :
  cdf_beta_Pinv_run Sample.collaborators 1 2 3 0.52479999999997595 =
  Val {| r_x := first_guess Sample.collaborators 2 3 0.52479999999997595;
         r_step0 := 999999; r_n := 0 |}.
Proof.
  eapply (cdf_beta_Pinv_exact_root Sample.collaborators 0 2 3).
  - vm_compute. reflexivity.
  - vm_compute. reflexivity.
Defined.

Lemma cdf_beta_Pinv_range_witness :
  inside01 (2 / (2 + 2)) /\
  ends_with (fun r => r = 999 \/ inside01 r)
            (cdf_beta_Pinv Sample.collaborators 1 2 2 0.5).
Proof.
  split; [split; reflexivity|].
  apply (cdf_beta_Pinv_range Sample.collaborators 0 2 2 0.5);
    [reflexivity | split; reflexivity].
Defined.

Lemma BetaInv_CDF_For_endpoints_witness :
  (x <- BetaInv_CDF_For Sample.collaborators 1 2 3 0 ;;
   Beta_CDF_At Sample.collaborators 2 3 x) = Val 0 /\
  (x <- BetaInv_CDF_For Sample.collaborators 1 2 3 1 ;;
   Beta_CDF_At Sample.collaborators 2 3 x) = Val 1 /\
  (p <- Beta_CDF_At Sample.collaborators 2 3 0 ;;
   BetaInv_CDF_For Sample.collaborators 1 2 3 p) = Val 0 /\
  (p <- Beta_CDF_At Sample.collaborators 2 3 1 ;;
   BetaInv_CDF_For Sample.collaborators 1 2 3 p) = Val 1.
Proof. apply BetaInv_CDF_For_endpoints; reflexivity. Defined.

